(** * The 1-D bar finite-element cell of [1.ipynb] (section 3, "FEA")

    The notebook cell assembles the global stiffness matrix of a bar of
    [num_elements] two-node elements, removes the row and column of the
    fixed node 0, calls [np.linalg.solve] and puts the zero displacement
    of the fixed node back with [np.insert].

    Numbers.  NumPy works on IEEE doubles; here a number is an element of
    an ordered field [R] (instantiated with [rat] for concrete inputs), so
    every operation is exact and rounding is not modelled.

    Arrays.  A NumPy array of shape [(m, m)] is a matrix ['M[R]_m], an
    array of shape [(m,)] a column ['cV[R]_m]; [K[r, c]] is [K r c].
    [num_elements] is a natural number and [length] a finite number:
    a negative [num_elements], for which [np.linspace] or [F[-1]] raise,
    and the infinities and NaN of the floats are outside the model.

    Errors.  A Python exception is a [Raise] in the [result] monad.

    Library calls.  [np.linalg.solve] is LAPACK code outside the notebook;
    it is modelled by what it computes on exact numbers: the solution of
    a non-singular system, [LinAlgError] on a singular one. *)

From HB Require Import structures.
From mathcomp Require Import boot order.
From mathcomp Require Import ssralg ssrnum ssrint rat matrix mxalgebra.
From mathcomp Require Import poly ring_tactic field_tactic.

Set Implicit Arguments.
Unset Strict Implicit.
Unset Printing Implicit Defensive.

Import GRing.Theory Num.Theory Order.Theory.
Local Open Scope ring_scope.

(** ** Exceptions *)

(** The exceptions of the statements of the cell: Python's own on
    [x / 0.0], on an unbound name and on an index out of range, NumPy's
    on operands whose shapes do not fit, and [numpy.linalg.LinAlgError]
    ("Singular matrix") from [np.linalg.solve]. *)
Inductive exn : Type :=
  | ZeroDivisionError
  | LinAlgError
  | NameError
  | ValueError
  | IndexError.

Inductive result (T : Type) : Type :=
  | Ok (x : T)
  | Raise (e : exn).

Arguments Ok {T} x.
Arguments Raise {T} e.

Definition bind {T U : Type} (r : result T) (f : T -> result U) : result U :=
  match r with
  | Ok x => f x
  | Raise e => Raise e
  end.

Notation "x <- r ;; k" := (bind r (fun x => k))
  (at level 61, r at next level, right associativity).

Section Cell.

Variable R : realFieldType.

(** ** Scalars *)

(** [num_elements / length]: Python's true division of an [int] by a
    [float]; a zero divisor raises. *)
Definition py_div (x y : R) : result R :=
  if y == 0 then Raise ZeroDivisionError else Ok (x / y).

(** ** Array primitives *)

(** [np.array([[1, -1], [-1, 1]])]. *)
Definition unit_block : 'M[R]_2 :=
  \matrix_(a, b) (if a == b then 1 else -1).

(** [k_local = np.array([[1, -1], [-1, 1]]) * c]. *)
Definition k_local (c : R) : 'M[R]_2 :=
  \matrix_(a, b) (unit_block a b * c).

(** [K[i:i+2, i:i+2] += B] on an [m]-by-[m] array, for [i + 2 <= m] (the
    only case the loop of the cell reaches: [i < num_elements] and
    [m = num_elements + 1]). *)
Definition iadd_block (m : nat) (K : 'M[R]_m) (i : nat) (B : 'M[R]_2) :
    'M[R]_m :=
  \matrix_(r, c)
    (K r c + (if (i <= r < i + 2)%N && (i <= c < i + 2)%N
              then B (inord (r - i)) (inord (c - i)) else 0)).

(** [F = np.zeros(n + 1); F[-1] = force]. *)
Definition setitem_last (n : nat) (F : 'cV[R]_n.+1) (v : R) : 'cV[R]_n.+1 :=
  \col_i (if i == ord_max then v else F i 0).

Definition load_vector (n : nat) (force : R) : 'cV[R]_n.+1 :=
  setitem_last (0 : 'cV[R]_n.+1) force.

(** [nodes = np.linspace(0, length, n + 1)]: [n + 1] evenly spaced
    positions, [0 + i * step] with [step = (length - 0) / n]. *)
Definition linspace0 (stop : R) (num : nat) : seq R :=
  [seq i%:R * (stop / (num.-1)%:R) | i <- iota 0 num].

(** [K[1:, 1:]] and [F[1:]]: the boundary condition at node 0. *)
Definition drop_first_row_col (n : nat) (K : 'M[R]_(1 + n)) : 'M[R]_n :=
  drsubmx K.

Definition drop_first (n : nat) (F : 'cV[R]_(1 + n)) : 'cV[R]_n :=
  dsubmx F.

(** [np.linalg.solve(A, b)]: the solution of the square system [A x = b];
    raises [LinAlgError] when [A] is singular. *)
Definition linalg_solve (m : nat) (A : 'M[R]_m) (b : 'cV[R]_m) :
    result 'cV[R]_m :=
  if A \in unitmx then Ok (invmx A *m b) else Raise LinAlgError.

(** [np.insert(d, 0, 0)]. *)
Definition insert0 (n : nat) (d : 'cV[R]_n) : 'cV[R]_(1 + n) :=
  col_mx (0 : 'cV[R]_1) d.

(** ** The cell *)

(** The assembly loop
<<
    for i in range(num_elements):
        k_local = np.array([[1, -1], [-1, 1]]) * (num_elements / length)
        K[i:i+2, i:i+2] += k_local
>>
    started from [K = np.zeros((n + 1, n + 1))].  The coefficient of the
    local block is the expression [stiff i], evaluated in each iteration;
    the cell has [stiff i = num_elements / length] for every [i]. *)
Definition assemble_step (n : nat) (stiff : nat -> result R)
    (acc : result 'M[R]_n.+1) (i : nat) : result 'M[R]_n.+1 :=
  K <- acc ;; c <- stiff i ;; Ok (iadd_block K i (k_local c)).

Definition assemble (n : nat) (stiff : nat -> result R) : result 'M[R]_n.+1 :=
  foldl (assemble_step stiff) (Ok 0) (iota 0 n).

(** The boundary condition, the solve and the reinsertion
<<
    K = K[1:, 1:]; F = F[1:]
    displacements = np.linalg.solve(K, F)
    displacements = np.insert(displacements, 0, 0)
>>  *)
Definition solve_fixed0 (n : nat) (K : 'M[R]_n.+1) (F : 'cV[R]_n.+1) :
    result 'cV[R]_n.+1 :=
  d <- linalg_solve (drop_first_row_col K) (drop_first F) ;; Ok (insert0 d).

(** The cell, as a function of its stiffness expression and load vector. *)
Definition solve_bar (n : nat) (stiff : nat -> result R) (F : 'cV[R]_n.+1) :
    result 'cV[R]_n.+1 :=
  K <- assemble n stiff ;; solve_fixed0 K F.

(** The cell, as a function of the three parameters it defines at its top
    ([length = 1.0], [num_elements = 10], [force = -5.0] in the notebook). *)
Definition fea (length : R) (num_elements : nat) (force : R) :
    result 'cV[R]_num_elements.+1 :=
  solve_bar (fun _ => py_div num_elements%:R length)
            (load_vector num_elements force).

Definition nodes (length : R) (num_elements : nat) : seq R :=
  linspace0 length num_elements.+1.

End Cell.

(** ** The kinematics cell (section 2 of the notebook)

    The right-hand side that the cell hands to [odeint]:
<<
    def spacecraft_motion(y, t, u):
        pos, vel = y
        dydt = [vel, u]
        return dydt
>>
    The unpacking [pos, vel = y] raises [ValueError] unless [y] has
    exactly two entries.  [odeint] itself is library code and is not
    modelled. *)

Section Kinematics.

Variable R : realFieldType.

Definition spacecraft_motion (y : seq R) (t u : R) : result (seq R) :=
  match y with
  | [:: pos; vel] => Ok [:: vel; u]
  | _ => Raise ValueError
  end.

End Kinematics.

(** ** The cell as notebook code

    A notebook cell is module-level code: its assignments bind names of
    the notebook's global namespace, which the next cells see (the modal
    analysis cell rebinds [K], the multibody cell rebinds [force]).  The
    namespace below has the names the FEA cell assigns; each statement
    reads the names it mentions from the namespace and binds its target.
    The shape of an array is part of its value, since [K] and [F] change
    shape at the boundary condition.  The imports and the plotting calls at
    the end of the cell are not modelled. *)

Section Notebook.

Variable R : realFieldType.

Definition array1 : Type := {m : nat & 'cV[R]_m}.
Definition array2 : Type := {m : nat & 'M[R]_m}.

Record namespace : Type := Namespace {
  v_length : option R;
  v_num_elements : option nat;
  v_force : option R;
  v_nodes : option (seq R);
  v_K : option array2;
  v_F : option array1;
  v_i : option nat;
  v_k_local : option 'M[R]_2;
  v_displacements : option array1
}.

(** A fresh kernel: no name bound. *)
Definition empty_namespace : namespace :=
  Namespace None None None None None None None None None.

Definition set_length (x : R) (ns : namespace) : namespace :=
  let: Namespace _ b c d e f g h j := ns in Namespace (Some x) b c d e f g h j.
Definition set_num_elements (x : nat) (ns : namespace) : namespace :=
  let: Namespace a _ c d e f g h j := ns in Namespace a (Some x) c d e f g h j.
Definition set_force (x : R) (ns : namespace) : namespace :=
  let: Namespace a b _ d e f g h j := ns in Namespace a b (Some x) d e f g h j.
Definition set_nodes (x : seq R) (ns : namespace) : namespace :=
  let: Namespace a b c _ e f g h j := ns in Namespace a b c (Some x) e f g h j.
Definition set_K (x : array2) (ns : namespace) : namespace :=
  let: Namespace a b c d _ f g h j := ns in Namespace a b c d (Some x) f g h j.
Definition set_F (x : array1) (ns : namespace) : namespace :=
  let: Namespace a b c d e _ g h j := ns in Namespace a b c d e (Some x) g h j.
Definition set_i (x : nat) (ns : namespace) : namespace :=
  let: Namespace a b c d e f _ h j := ns in Namespace a b c d e f (Some x) h j.
Definition set_k_local (x : 'M[R]_2) (ns : namespace) : namespace :=
  let: Namespace a b c d e f g _ j := ns in Namespace a b c d e f g (Some x) j.
Definition set_displacements (x : array1) (ns : namespace) : namespace :=
  let: Namespace a b c d e f g h _ := ns in Namespace a b c d e f g h (Some x).

(** Reading a name. *)
Definition lookup (T : Type) (x : option T) : result T :=
  if x is Some v then Ok v else Raise NameError.

(** Array operations on arrays of any shape. *)

(** [F[-1] = v]. *)
Definition setitem_last_arr (F : array1) (v : R) : result array1 :=
  match F with
  | existT 0 _ => Raise IndexError
  | existT m.+1 F => Ok (existT _ m.+1 (setitem_last F v) : array1)
  end.

(** [K[i:i+2, i:i+2] += B]: the slice is 2-by-2 when [i + 2] is within
    the array; a smaller slice does not take a 2-by-2 operand. *)
Definition iadd_block_arr (A : array2) (i : nat) (B : 'M[R]_2) :
    result array2 :=
  let: existT m K := A in
  if (i + 2 <= m)%N then Ok (existT _ m (iadd_block K i B) : array2)
  else Raise ValueError.

(** [K[1:, 1:]] and [F[1:]]; an empty array stays empty. *)
Definition tail2 (A : array2) : array2 :=
  match A with
  | existT 0 K => existT _ 0%N K
  | existT m.+1 K => existT _ m (drop_first_row_col K)
  end.

Definition tail1 (F : array1) : array1 :=
  match F with
  | existT 0 F => existT _ 0%N F
  | existT m.+1 F => existT _ m (drop_first F)
  end.

(** [np.linalg.solve(A, b)]; the shapes must agree. *)
Definition linalg_solve_arr (A : array2) (b : array1) : result array1 :=
  let: existT m K := A in
  let: existT m' F := b in
  match m =P m' with
  | ReflectT e =>
      x <- linalg_solve K (castmx (esym e, erefl) F) ;;
      Ok (existT _ m x : array1)
  | ReflectF _ => Raise ValueError
  end.

(** [np.insert(d, 0, 0)]. *)
Definition insert0_arr (d : array1) : array1 :=
  let: existT m d := d in existT _ (1 + m)%N (insert0 d).

(** *** Statements

    A statement runs on a namespace and leaves a namespace; when it
    raises, the names bound so far stay bound, as they do in a notebook
    after a cell has failed. *)

Definition stmt (T : Type) : Type := namespace -> result T * namespace.

Definition ret (T : Type) (x : T) : stmt T := fun ns => (Ok x, ns).

Definition bind_stmt (T U : Type) (s : stmt T) (k : T -> stmt U) : stmt U :=
  fun ns =>
    let: (r, ns') := s ns in
    match r with
    | Ok x => k x ns'
    | Raise e => (Raise e, ns')
    end.

(** Evaluating an expression that may raise. *)
Definition eval (T : Type) (r : result T) : stmt T := fun ns => (r, ns).

(** Reading and binding a name. *)
Definition read (T : Type) (name : namespace -> option T) : stmt T :=
  fun ns => (lookup (name ns), ns).

Definition assign (set : namespace -> namespace) : stmt unit :=
  fun ns => (Ok tt, set ns).

(** [for i in s: body]. *)
Definition for_each (s : seq nat) (body : nat -> stmt unit) : stmt unit :=
  foldr (fun i rest => bind_stmt (body i) (fun _ => rest)) (ret tt) s.

End Notebook.

Notation "x <~ s ;; k" := (bind_stmt s (fun x => k))
  (at level 61, s at next level, right associativity).
Notation "s ;;; k" := (bind_stmt s (fun _ => k))
  (at level 61, right associativity).

Section NotebookCell.

Variable R : realFieldType.

(** The statements, in the order of the cell. *)

(** [nodes = np.linspace(0, length, num_elements + 1)] *)
Definition stmt_nodes : stmt R unit :=
  len <~ read (@v_length R) ;; n <~ read (@v_num_elements R) ;;
  assign (set_nodes (linspace0 len n.+1)).

(** [K = np.zeros((num_elements + 1, num_elements + 1))] *)
Definition stmt_K : stmt R unit :=
  n <~ read (@v_num_elements R) ;;
  assign (set_K (existT _ n.+1 (0 : 'M[R]_n.+1))).

(** [F = np.zeros(num_elements + 1)] *)
Definition stmt_F : stmt R unit :=
  n <~ read (@v_num_elements R) ;;
  assign (set_F (existT _ n.+1 (0 : 'cV[R]_n.+1))).

(** [F[-1] = force] *)
Definition stmt_load : stmt R unit :=
  F <~ read (@v_F R) ;; force <~ read (@v_force R) ;;
  F' <~ eval (setitem_last_arr F force) ;; assign (set_F F').

(** [k_local = np.array([[1, -1], [-1, 1]]) * (num_elements / length)] *)
Definition stmt_k_local : stmt R unit :=
  n <~ read (@v_num_elements R) ;; len <~ read (@v_length R) ;;
  c <~ eval (py_div n%:R len) ;; assign (set_k_local (k_local c)).

(** [K[i:i+2, i:i+2] += k_local] *)
Definition stmt_iadd : stmt R unit :=
  K <~ read (@v_K R) ;; i <~ read (@v_i R) ;; B <~ read (@v_k_local R) ;;
  K' <~ eval (iadd_block_arr K i B) ;; assign (set_K K').

(** [for i in range(num_elements): ...]; the [for] binds [i]. *)
Definition stmt_for : stmt R unit :=
  n <~ read (@v_num_elements R) ;;
  for_each (iota 0 n)
    (fun i => assign (set_i i) ;;; stmt_k_local ;;; stmt_iadd).

(** [K = K[1:, 1:]] *)
Definition stmt_bc_K : stmt R unit :=
  K <~ read (@v_K R) ;; assign (set_K (tail2 K)).

(** [F = F[1:]] *)
Definition stmt_bc_F : stmt R unit :=
  F <~ read (@v_F R) ;; assign (set_F (tail1 F)).

(** [displacements = np.linalg.solve(K, F)] *)
Definition stmt_solve : stmt R unit :=
  K <~ read (@v_K R) ;; F <~ read (@v_F R) ;;
  d <~ eval (linalg_solve_arr K F) ;; assign (set_displacements d).

(** [displacements = np.insert(displacements, 0, 0)] *)
Definition stmt_insert : stmt R unit :=
  d <~ read (@v_displacements R) ;; assign (set_displacements (insert0_arr d)).

(** The cell whose first three lines read [length = len],
    [num_elements = n], [force = f]. *)
Definition run_cell (len : R) (n : nat) (f : R) : stmt R unit :=
  assign (set_length len) ;;; assign (set_num_elements n) ;;;
  assign (set_force f) ;;;
  stmt_nodes ;;; stmt_K ;;; stmt_F ;;; stmt_load ;;; stmt_for ;;;
  stmt_bc_K ;;; stmt_bc_F ;;; stmt_solve ;;; stmt_insert.

End NotebookCell.

(** ** Derived notions used in the statements *)

Section Notions.

Variable R : realFieldType.

(** What element [i] contributes to the global matrix: its local block
    added into rows and columns [i], [i + 1] of a zero matrix. *)
Definition element_contribution (n : nat) (i : nat) (c : R) : 'M[R]_n.+1 :=
  iadd_block (0 : 'M[R]_n.+1) i (k_local c).

(** The global matrix of a bar whose element [i] has stiffness [ke i]. *)
Definition stiffness_matrix (n : nat) (ke : nat -> R) : 'M[R]_n.+1 :=
  \sum_(i < n) element_contribution n i (ke i).

(** The two nodes of element [i], as a signed indicator of a node index:
    [+1] at node [i], [-1] at node [i + 1], [0] elsewhere. *)
Definition incidence (i r : nat) : R := (r == i)%:R - (r == i.+1)%:R.

(** Entry [j] of a nodal vector, by number. *)
Definition nth_disp (n : nat) (d : 'cV[R]_n.+1) (j : nat) : R := d (inord j) 0.

(** The tension of element [i] under the nodal displacements [d]. *)
Definition tension (n : nat) (ke : nat -> R) (d : 'cV[R]_n.+1) (i : nat) :
    R :=
  ke i * (nth_disp d i - nth_disp d i.+1).

(** The uniform translation [(1, 1, ..., 1)]. *)
Definition ones (m : nat) : 'cV[R]_m := \col__ 1.

(** The field that grows linearly from the fixed end: [force * j / k] at
    node [j]. *)
Definition linear_field (n : nat) (k force : R) : 'cV[R]_n.+1 :=
  \col_j (force * j%:R / k).

(** A degree of freedom is free when it is not the fixed node 0. *)
Definition free (n : nat) (i : 'I_n.+1) : bool := i != ord0.

(** The elimination of a constrained node as the specification words it:
    remove row and column [node], and subtract from the load of the free
    nodes column [node] of [K] times the prescribed [value]. *)
Definition spec_eliminate n (node : 'I_n.+1) (value : R)
    (K : 'M[R]_n.+1) (F : 'cV[R]_n.+1) : 'M[R]_n * 'cV[R]_n :=
  (row' node (col' node K), row' node (F - value *: col node K)).

(** Static equilibrium on the free degrees of freedom. *)
Definition equilibrium (n : nat) (K : 'M[R]_n.+1) (F d : 'cV[R]_n.+1) : Prop :=
  forall i : 'I_n.+1, free i -> (K *m d) i 0 = F i 0.

(** Motion under a constant acceleration [u] from position [p0] and
    velocity [v0], as polynomials in the time. *)
Definition position (p0 v0 u : R) : {poly R} :=
  p0%:P + v0 *: 'X + (u / 2) *: 'X^2.

Definition velocity (v0 u : R) : {poly R} := v0%:P + u *: 'X.

End Notions.

Section NotebookNotions.

Variable R : realFieldType.

(** The namespace a successful run of the cell leaves behind: every name
    the cell assigns is bound to a value that depends on the three
    parameters only; [i] and [k_local] keep what they were bound to when
    the loop body never runs. *)
Definition final_namespace (len : R) (n : nat) (f : R) (ns : namespace R) :
    namespace R :=
  Namespace (Some len) (Some n) (Some f)
    (Some (linspace0 len n.+1))
    (Some (existT _ n (drop_first_row_col
                         (stiffness_matrix n (fun=> n%:R / len))) : array2 R))
    (Some (existT _ n (drop_first (load_vector n f)) : array1 R))
    (if n is m.+1 then Some m else v_i ns)
    (if n is _.+1 then Some (k_local (n%:R / len)) else v_k_local ns)
    (Some (existT _ n.+1 (linear_field n (n%:R / len) f) : array1 R)).

(** The namespace at the moment the loop raises on a zero [length], in
    its first iteration. *)
Definition failed_namespace (len : R) (n : nat) (f : R) (ns : namespace R) :
    namespace R :=
  Namespace (Some len) (Some n) (Some f)
    (Some (linspace0 len n.+1))
    (Some (existT _ n.+1 (0 : 'M[R]_n.+1) : array2 R))
    (Some (existT _ n.+1 (load_vector n f) : array1 R))
    (Some 0%N) (v_k_local ns) (v_displacements ns).

(** A run whose only effect is to bind its result to [displacements]. *)
Definition only_binds_result (ns ns' : namespace R) : Prop :=
  exists d, ns' = set_displacements d ns.

End NotebookNotions.

(** * Properties *)

Section MonadFacts.

Variables T U : Type.

Lemma bind_Ok (x : T) (f : T -> result U) : (y <- Ok x ;; f y) = f x.
Proof. by []. Qed.

Lemma bind_Ok_inv (r : result T) (f : T -> result U) (y : U) :
  (x <- r ;; f x) = Ok y -> exists2 x, r = Ok x & f x = Ok y.
Proof. by case: r => [x|e] //= Hx; exists x. Qed.

End MonadFacts.

Section Assembly.

Variable R : realFieldType.
Implicit Types (n i : nat) (c : R) (ke : nat -> R).

Lemma iadd_blockE m (K : 'M[R]_m) i (B : 'M[R]_2) :
  iadd_block K i B = K + iadd_block 0 i B.
Proof. by apply/matrixP => r s; rewrite !mxE add0r. Qed.

Lemma in_block i (r : nat) :
  (i <= r < i + 2)%N = (r == i) || (r == i.+1).
Proof.
rewrite addn2 ltnS; case: (ltngtP r i) => [lt_ri|lt_ir|->].
- by rewrite ltn_eqF // (ltn_trans lt_ri).
- by rewrite (eqn_leq r) lt_ir andbT.
- by rewrite leqnSn.
Qed.

Lemma block_index i (r : nat) :
  (r == i) || (r == i.+1) ->
  (inord (r - i) : 'I_2) = (if r == i then ord0 else ord_max).
Proof.
case/orP => /eqP->.
  by rewrite subnn eqxx; apply/val_inj; rewrite /= inordK.
by rewrite subSnn gtn_eqF //; apply/val_inj; rewrite /= inordK.
Qed.

(** Entries of one element's contribution. *)
Lemma element_contributionE n i c (r s : 'I_n.+1) :
  element_contribution n i c r s = c * incidence R i r * incidence R i s.
Proof.
rewrite /element_contribution !mxE add0r !in_block /incidence.
case: ifP => [/andP[Hr Hs]|].
  rewrite !block_index //.
  by case/orP: Hr => /eqP->; case/orP: Hs => /eqP->;
    rewrite ?eqxx ?(gtn_eqF (ltnSn i)) ?(ltn_eqF (ltnSn i)) /=; ring.
case: (r == i :> nat); case: (r == i.+1 :> nat);
case: (s == i :> nat); case: (s == i.+1 :> nat) => //= _; ring.
Qed.

(** *** The loop *)

Lemma assemble_step_Raise n (stiff : nat -> result R) e s :
  foldl (assemble_step (n:=n) stiff) (Raise e) s = Raise e.
Proof. by elim: s. Qed.

Lemma assemble_foldl n ke (K0 : 'M[R]_n.+1) (s : seq nat) :
  foldl (assemble_step (fun i => Ok (ke i))) (Ok K0) s
  = Ok (K0 + \sum_(i <- s) element_contribution n i (ke i)).
Proof.
elim: s K0 => [|i s IH] K0; first by rewrite big_nil addr0.
by rewrite /= IH big_cons addrA -iadd_blockE.
Qed.

Lemma assemble_Ok n ke :
  assemble n (fun i => Ok (ke i)) = Ok (stiffness_matrix n ke).
Proof.
rewrite /assemble assemble_foldl add0r /stiffness_matrix.
by rewrite -(big_mkord xpredT (fun i => element_contribution n i (ke i)))
           /index_iota subn0.
Qed.

Lemma stiffness_matrixE n ke (r s : 'I_n.+1) :
  stiffness_matrix n ke r s
  = \sum_(i < n) ke i * incidence R i r * incidence R i s.
Proof.
by rewrite /stiffness_matrix summxE; apply: eq_bigr => i _;
   rewrite element_contributionE.
Qed.

(** *** The matrix as an operator on nodal vectors *)

Lemma sum_incidence n (i : 'I_n) (x : 'I_n.+1 -> R) :
  \sum_(j < n.+1) incidence R i j * x j
  = x (widen_ord (leqnSn n) i) - x (lift ord0 i).
Proof.
rewrite /incidence.
under eq_bigr do rewrite mulrBl.
rewrite sumrB; congr (_ - _).
  rewrite (bigD1 (widen_ord (leqnSn n) i)) //= eqxx mul1r big1 ?addr0 //.
  move=> j Hj.
  by rewrite -val_eqE /= in Hj; rewrite (negbTE Hj) mul0r.
rewrite (bigD1 (lift ord0 i)) //= eqxx mul1r big1 ?addr0 // => j Hj.
by rewrite -val_eqE /= in Hj; rewrite (negbTE Hj) mul0r.
Qed.

Lemma stiffness_mulE n ke (d : 'cV[R]_n.+1) (r : 'I_n.+1) :
  (stiffness_matrix n ke *m d) r 0
  = \sum_(i < n) incidence R i r *
      (ke i * (d (widen_ord (leqnSn n) i) 0 - d (lift ord0 i) 0)).
Proof.
rewrite mxE.
under eq_bigr do rewrite stiffness_matrixE mulr_suml.
rewrite exchange_big /=; apply: eq_bigr => i _.
rewrite -(sum_incidence i (fun j => d j 0)) !mulr_sumr.
by apply: eq_bigr => j _; ring.
Qed.

(** Of the sum over the elements, node [r] keeps the element on its right
    and the element on its left. *)
Lemma sum_incidence_row n (T : nat -> R) (r : nat) :
  \sum_(i < n) incidence R i r * T i
  = (if (r < n)%N then T r else 0) - (if (0 < r <= n)%N then T r.-1 else 0).
Proof.
elim: n => [|n IH]; first by rewrite big_ord0 ltn0 leqn0 lt0n andNb subr0.
rewrite big_ord_recr /= IH /incidence ltnS.
case: (ltngtP r n) => [lt_rn|lt_nr|eq_rn] /=.
- rewrite andbT (ltnW (ltnW lt_rn : r < n.+1)%N) andbT.
  by rewrite (ltn_eqF (ltnW lt_rn : r < n.+1)%N) subrr mul0r addr0.
- have -> : (0 < r)%N by apply: leq_ltn_trans lt_nr.
  rewrite andbF (leq_eqVlt r) ltnS (leqNgt r) lt_nr orbF /=.
  by case: eqP => [->|_] /=;
     rewrite !(sub0r, subr0, mulN1r, oppr0, mul0r, add0r).
- rewrite eq_rn andbT ltn_eqF // leqnSn andbT subr0 mul1r.
  by rewrite sub0r addrC.
Qed.

Lemma widen_inord n (i : 'I_n) : widen_ord (leqnSn n) i = inord i.
Proof. by apply/val_inj; rewrite /= inordK // ltnS ltnW. Qed.

Lemma lift0_inord n (i : 'I_n) : lift ord0 i = inord i.+1 :> 'I_n.+1.
Proof. by apply/val_inj; rewrite /= inordK // ltnS. Qed.

(** The net force at node [r]: the tension of the element on its right
    minus the tension of the element on its left. *)
Lemma stiffness_row n ke (d : 'cV[R]_n.+1) (r : 'I_n.+1) :
  (stiffness_matrix n ke *m d) r 0
  = (if (r < n)%N then tension ke d r else 0)
    - (if (0 < r)%N then tension ke d r.-1 else 0).
Proof.
rewrite stiffness_mulE.
rewrite -[in RHS](andbT (0 < r)%N) -[X in _ && X](ltn_ord r) ltnS.
rewrite -sum_incidence_row.
by apply: eq_bigr => i _; rewrite widen_inord lift0_inord.
Qed.

End Assembly.

Section Solve.

Variable R : realFieldType.
Implicit Types (n i : nat) (c : R) (ke : nat -> R).

(** *** The solver *)

Lemma unitmx_ker m (A : 'M[R]_m) :
  (forall v : 'cV[R]_m, A *m v = 0 -> v = 0) -> A \in unitmx.
Proof.
move=> kerA; rewrite -unitmx_tr -row_free_unit -kermx_eq0.
apply/eqP/row_matrixP => i; rewrite row0.
have /kerA : A *m (row i (kermx A^T))^T = 0.
  by apply: trmx_inj; rewrite trmx_mul trmxK -row_mul mulmx_ker row0 trmx0.
by move/(congr1 trmx); rewrite trmxK trmx0.
Qed.

Lemma linalg_solve_unit m (A : 'M[R]_m) (b x : 'cV[R]_m) :
  A \in unitmx -> A *m x = b -> linalg_solve A b = Ok x.
Proof. by move=> uA <-; rewrite /linalg_solve uA mulKmx. Qed.

Lemma linalg_solve_Ok m (A : 'M[R]_m) (b x : 'cV[R]_m) :
  linalg_solve A b = Ok x -> A \in unitmx /\ A *m x = b.
Proof.
rewrite /linalg_solve; case: ifP => // uA [<-]; split=> //.
by rewrite mulKVmx.
Qed.

Lemma linalg_solve_singular m (A : 'M[R]_m) (b : 'cV[R]_m) :
  A \notin unitmx -> linalg_solve A b = Raise LinAlgError.
Proof. by rewrite /linalg_solve => /negbTE->. Qed.

(** The rows of the free nodes see the reduced matrix only. *)
Lemma reduced_mul n (K : 'M[R]_n.+1) (v : 'cV[R]_n) :
  drop_first (K *m insert0 v) = drop_first_row_col K *m v.
Proof.
rewrite /drop_first /drop_first_row_col /insert0.
rewrite -[K in LHS](@submxK _ 1 n 1 n) (@mul_block_col R 1 n 1 n 1).
by rewrite col_mxKd mulmx0 add0r.
Qed.

Lemma insert0_0 n (v : 'cV[R]_n) : insert0 v ord0 0 = 0.
Proof.
rewrite /insert0.
have -> : (ord0 : 'I_(1 + n)) = lshift n ord0 by apply/val_inj.
by rewrite col_mxEu mxE.
Qed.

Lemma drop_firstE n (F : 'cV[R]_n.+1) (j : 'I_n) :
  drop_first F j 0 = F (lift ord0 j) 0.
Proof.
rewrite /drop_first mxE; congr (F _ _); exact/val_inj.
Qed.

Lemma drop_first_row_colE n (K : 'M[R]_n.+1) (i j : 'I_n) :
  drop_first_row_col K i j = K (lift ord0 i) (lift ord0 j).
Proof. by rewrite /drop_first_row_col !mxE; congr (K _ _); apply/val_inj. Qed.

Lemma drop_first_insert0 n (v : 'cV[R]_n) : drop_first (insert0 v) = v.
Proof. by rewrite /drop_first /insert0 col_mxKd. Qed.

Lemma insert0_drop_first n (d : 'cV[R]_n.+1) :
  d ord0 0 = 0 -> insert0 (drop_first d) = d.
Proof.
move=> d0; rewrite /insert0 /drop_first -[RHS](@vsubmxK _ 1 n); congr col_mx.
apply/colP => i; rewrite !mxE ord1.
by have -> : lshift n (0 : 'I_1) = ord0 :> 'I_n.+1 by exact/val_inj.
Qed.

Lemma equilibriumP n (K : 'M[R]_n.+1) (F d : 'cV[R]_n.+1) :
  equilibrium K F d <-> drop_first (K *m d) = drop_first F.
Proof.
split=> [eq|eq i].
  by apply/colP => j; rewrite !drop_firstE eq.
rewrite /free; case: (unliftP ord0 i) => [j ->|->]; last by rewrite eqxx.
by move=> _; rewrite -!drop_firstE eq.
Qed.

(** *** The kernel of the constrained system *)

Lemma nth_disp_val n (d : 'cV[R]_n.+1) (r : 'I_n.+1) : nth_disp d r = d r 0.
Proof. by rewrite /nth_disp inord_val. Qed.

Lemma nth_disp0 n (d : 'cV[R]_n.+1) : nth_disp d 0 = d ord0 0.
Proof. by rewrite -(nth_disp_val d ord0). Qed.

Section Kernel.
Variables (n : nat) (ke : nat -> R) (d : 'cV[R]_n.+1).
Hypothesis ke_neq0 : forall i, (i < n)%N -> ke i != 0.
Hypothesis d_fixed : d ord0 0 = 0.
Hypothesis d_eq : equilibrium (stiffness_matrix n ke) 0 d.

Lemma tension_balance i : (i < n)%N ->
  (if (i.+1 < n)%N then tension ke d i.+1 else 0) - tension ke d i = 0.
Proof.
move=> lt_in; have := d_eq (i := inord i.+1).
rewrite /free -val_eqE /= inordK // => /(_ isT).
by rewrite stiffness_row inordK //= mxE.
Qed.

Lemma tension0 i : (i < n)%N -> tension ke d i = 0.
Proof.
have [m] := ubnP (n - i); elim: m i => // m IH i; rewrite ltnS => le_m lt_in.
have := tension_balance lt_in; case: ifP => [lt_i1n|_]; last first.
  by rewrite sub0r => /eqP; rewrite oppr_eq0 => /eqP.
rewrite IH ?sub0r //; first by rewrite subnS prednK ?subn_gt0.
by move/eqP; rewrite oppr_eq0 => /eqP.
Qed.

Lemma disp_const j : (j <= n)%N -> nth_disp d j = 0.
Proof.
elim: j => [_|j IH lt_jn]; first by rewrite nth_disp0.
have /eqP := tension0 lt_jn.
rewrite /tension mulf_eq0 (negbTE (ke_neq0 lt_jn)) /=.
by rewrite subr_eq0 IH ?(ltnW lt_jn) // => /eqP.
Qed.

Lemma stiffness_ker : d = 0.
Proof.
apply/colP => r; rewrite mxE -nth_disp_val disp_const //.
by rewrite -ltnS.
Qed.
End Kernel.

(** *** The assembled matrix and its reduction *)

Lemma drop_first0 n : drop_first (0 : 'cV[R]_n.+1) = 0.
Proof. by apply/colP => j; rewrite drop_firstE !mxE. Qed.

Lemma reduced_unit n ke :
  (forall i, (i < n)%N -> ke i != 0) ->
  drop_first_row_col (stiffness_matrix n ke) \in unitmx.
Proof.
move=> ke_neq0; apply: unitmx_ker => v Kv.
rewrite -(drop_first_insert0 v).
rewrite (@stiffness_ker n ke (insert0 v)) ?drop_first0 //.
  exact: insert0_0.
by apply/equilibriumP; rewrite reduced_mul Kv drop_first0.
Qed.

Lemma stiffness_ones n ke : stiffness_matrix n ke *m ones R n.+1 = 0.
Proof.
apply/colP => r; rewrite stiffness_mulE mxE big1 // => i _.
by rewrite !mxE subrr mulr0 mulr0.
Qed.

Lemma stiffness_singular n ke : stiffness_matrix n ke \notin unitmx.
Proof.
apply/negP => uK.
have /colP/(_ ord0) : ones R n.+1 = 0.
  by rewrite -(mulKmx uK (ones R n.+1)) stiffness_ones mulmx0.
by rewrite !mxE => /eqP; rewrite oner_eq0.
Qed.

Lemma stiffness_sym n ke : (stiffness_matrix n ke)^T = stiffness_matrix n ke.
Proof.
apply/matrixP => r s; rewrite mxE !stiffness_matrixE.
by apply: eq_bigr => i _; ring.
Qed.

Lemma row_sum n ke (r : 'I_n.+1) : \sum_s stiffness_matrix n ke r s = 0.
Proof.
have /colP/(_ r) := stiffness_ones n ke; rewrite mxE [RHS]mxE => {2}<-.
by apply: eq_bigr => s _; rewrite mxE mulr1.
Qed.

(** Existence and uniqueness of the constrained equilibrium. *)
Lemma solve_fixed0_Ok n ke (F : 'cV[R]_n.+1) :
  (forall i, (i < n)%N -> ke i != 0) ->
  exists d, [/\ solve_fixed0 (stiffness_matrix n ke) F = Ok d, d ord0 0 = 0
                & equilibrium (stiffness_matrix n ke) F d].
Proof.
move=> /reduced_unit uK; rewrite /solve_fixed0 /linalg_solve uK /=.
eexists; split; first by []; first exact: insert0_0.
by apply/equilibriumP; rewrite reduced_mul mulKVmx.
Qed.

Lemma solve_fixed0_uniq n ke (F d : 'cV[R]_n.+1) :
  (forall i, (i < n)%N -> ke i != 0) ->
  d ord0 0 = 0 -> equilibrium (stiffness_matrix n ke) F d ->
  solve_fixed0 (stiffness_matrix n ke) F = Ok d.
Proof.
move=> /reduced_unit uK d0 /equilibriumP eq_d.
rewrite /solve_fixed0 (@linalg_solve_unit _ _ _ (drop_first d)) //.
  by rewrite -reduced_mul insert0_drop_first.
by rewrite bind_Ok insert0_drop_first.
Qed.

(** *** Uniform bar, load at the free end *)

Lemma load_vectorE n (force : R) (r : 'I_n.+1) :
  load_vector n force r 0 = if (r < n)%N then 0 else force.
Proof.
rewrite !mxE -val_eqE /= ltn_neqAle -ltnS ltn_ord andbT.
by case: eqP => _ //=; rewrite mxE.
Qed.

Lemma linear_field_tension n (k force : R) i : k != 0 -> (i < n)%N ->
  tension (fun=> k) (linear_field n k force) i = - force.
Proof.
move=> k0 lt_in; rewrite /tension /nth_disp !mxE !inordK ?ltnS // 1?ltnW //.
by rewrite -natr1; field.
Qed.

Lemma linear_field_equilibrium n (k force : R) : k != 0 ->
  equilibrium (stiffness_matrix n (fun=> k)) (load_vector n force)
              (linear_field n k force).
Proof.
move=> k0 r; rewrite /free -val_eqE /= -lt0n => r_gt0.
rewrite stiffness_row load_vectorE r_gt0.
rewrite [in X in _ - X]linear_field_tension //;
  first by rewrite prednK // -ltnS.
case: ifP => [lt_rn|_]; last by rewrite sub0r opprK.
by rewrite linear_field_tension // subrr.
Qed.

Lemma solve_uniform n (k force : R) : k != 0 ->
  solve_fixed0 (stiffness_matrix n (fun=> k)) (load_vector n force)
  = Ok (linear_field n k force).
Proof.
move=> k0; apply: solve_fixed0_uniq => //; last exact: linear_field_equilibrium.
by rewrite mxE mulr0 mul0r.
Qed.
End Solve.

(** * The cell *)

Section Bar.

Variable R : realFieldType.
Implicit Types (n i : nat) (k force : R) (ke : nat -> R).

Lemma solve_bar_Ok n ke (F : 'cV[R]_n.+1) :
  solve_bar (fun i => Ok (ke i)) F = solve_fixed0 (stiffness_matrix n ke) F.
Proof. by rewrite /solve_bar assemble_Ok. Qed.

Lemma fea_solve_bar (length : R) n force : length != 0 ->
  fea length n force
  = solve_bar (fun=> Ok (n%:R / length)) (load_vector n force).
Proof. by move=> /negbTE len0; rewrite /fea /py_div len0. Qed.

Lemma stiffness_matrix0 ke : stiffness_matrix 0 ke = 0.
Proof. by rewrite /stiffness_matrix big_ord0. Qed.

Lemma stiffness_matrix_zero n :
  stiffness_matrix n (fun=> 0) = 0 :> 'M[R]_n.+1.
Proof.
apply/matrixP => r s; rewrite stiffness_matrixE mxE big1 // => i _.
by rewrite !mul0r.
Qed.

Lemma linear_field0 (k force : R) (r : 'I_1) : linear_field 0 k force r 0 = 0.
Proof. by rewrite mxE ord1 mulr0 mul0r. Qed.

Lemma pos_neq0 n ke :
  (forall i, (i < n)%N -> 0 < ke i) -> forall i, (i < n)%N -> ke i != 0.
Proof. by move=> ke_gt0 i /ke_gt0; rewrite lt0r => /andP[]. Qed.

(** The solve of the cell, whenever the loop does not divide by zero. *)
Lemma solve_cell (len : R) n (f : R) : ~~ ((len == 0) && (0 < n)%N) ->
  solve_fixed0 (stiffness_matrix n (fun=> n%:R / len)) (load_vector n f)
  = Ok (linear_field n (n%:R / len) f).
Proof.
case: n => [_|n].
  have -> : stiffness_matrix 0 (fun=> 0%:R / len)
            = stiffness_matrix 0 (fun=> 1) :> 'M[R]_1.
    by rewrite !stiffness_matrix0.
  apply: solve_fixed0_uniq => [i|| r] //; first exact: linear_field0.
  by rewrite /free ord1 eqxx.
rewrite andbT => len0; apply: solve_uniform.
by rewrite mulf_neq0 ?invr_neq0 // pnatr_eq0.
Qed.

(** What the cell computes, for all values of its three parameters: the
    loop raises on a zero [length] as soon as it runs once; otherwise the
    displacement of node [j] is [force * j / (num_elements / length)]. *)
Lemma fea_total (length : R) n force :
  fea length n force
  = if (length == 0) && (0 < n)%N then Raise ZeroDivisionError
    else Ok (linear_field n (n%:R / length) force).
Proof.
have [/andP[/eqP len0 n_gt0]|ok] := boolP ((length == 0) && (0 < n)%N).
  case: n n_gt0 => // n _.
  by rewrite /fea /solve_bar /assemble /= /py_div len0 eqxx /=
             assemble_step_Raise.
rewrite -(solve_cell force ok) /fea /solve_bar.
case: n ok => [_|n]; first by rewrite /assemble /= stiffness_matrix0.
by rewrite andbT => /negbTE len0; rewrite /py_div len0 assemble_Ok.
Qed.

Lemma fea_uniform n k force : k != 0 ->
  fea (n%:R / k) n force = Ok (linear_field n k force).
Proof.
move=> k0; rewrite fea_total.
case: n => [|n].
  by rewrite andbF; congr Ok; apply/colP=> r; rewrite !linear_field0.
rewrite mulf_eq0 invr_eq0 (negbTE k0) pnatr_eq0 /= invf_div mulrCA.
by rewrite divff ?mulr1 // pnatr_eq0.
Qed.

(** The field of the cell is in equilibrium under its load. *)
Lemma fea_equilibrium (length : R) n force : length != 0 ->
  exists (K : 'M[R]_n.+1) (d : 'cV[R]_n.+1),
    [/\ assemble n (fun=> py_div n%:R length) = Ok K,
        fea length n force = Ok d
      & equilibrium K (load_vector n force) d].
Proof.
move=> len0; rewrite fea_total (negbTE len0) /= /py_div (negbTE len0).
exists (stiffness_matrix n (fun=> n%:R / length)); eexists.
split; [exact: assemble_Ok | by [] |].
case: n => [|n]; first by move=> r; rewrite /free ord1 eqxx.
apply: linear_field_equilibrium.
by rewrite mulf_neq0 ?invr_neq0 // pnatr_eq0.
Qed.

(** The mesh of the cell: [n + 1] nodes from [0], strictly increasing
    when [length] is positive. *)
Lemma nodes_increasing (length : R) n (i j : nat) :
  0 < length -> (i < j <= n)%N ->
  nth 0 (nodes length n) i < nth 0 (nodes length n) j.
Proof.
move=> len_gt0 /andP[lt_ij le_jn].
have n_gt0 : (0 < n)%N by apply: leq_trans le_jn; apply: leq_ltn_trans lt_ij.
have lt_in : (i < n.+1)%N by rewrite ltnS (leq_trans (ltnW lt_ij)).
rewrite /nodes /linspace0 !(nth_map 0%N) ?size_iota // !nth_iota // !add0n.
by rewrite ltr_pM2r ?ltr_nat // divr_gt0 // ltr0n.
Qed.

Lemma nodes_first (length : R) n : nth 0 (nodes length n) 0 = 0.
Proof. by rewrite /nodes /linspace0 /= mul0r. Qed.

(** ** Assembly *)

(** C4.  Each iteration of the assembly loop adds to [K] the contribution
    of element [i]; that contribution is zero outside rows and columns
    [i], [i + 1], where it is the local block [ke i * [[1, -1], [-1, 1]]];
    started from the zero [(n + 1)]-by-[(n + 1)] matrix, the loop returns
    the sum of the [n] element contributions. *)
Theorem assemble_sum_of_blocks n ke :
  [/\ forall (K : 'M[R]_n.+1) i,
        assemble_step (fun j => Ok (ke j)) (Ok K) i
        = Ok (K + element_contribution n i (ke i)),
      forall i (r s : 'I_n.+1),
        element_contribution n i (ke i) r s
        = if ((r == i :> nat) || (r == i.+1 :> nat))
             && ((s == i :> nat) || (s == i.+1 :> nat))
          then (if r == s then ke i else - ke i) else 0
    & assemble n (fun j => Ok (ke j))
      = Ok (\sum_(i < n) element_contribution n i (ke i))].
Proof.
split=> [K i|i r s|]; last exact: assemble_Ok.
  by rewrite /assemble_step /= iadd_blockE.
rewrite element_contributionE /incidence -(inj_eq val_inj) /=.
move: (r : nat) (s : nat) => a b.
have [->|na] := eqVneq a i; [|have [->|na'] := eqVneq a i.+1];
  (have [eb|nb] := eqVneq b i; [|have [eb|nb'] := eqVneq b i.+1]);
  rewrite ?eb ?eqxx ?(ltn_eqF (ltnSn i)) ?(gtn_eqF (ltnSn i)) /=; ring.
Qed.

(** The textbook matrix of a bar of two elements of stiffness [k]. *)
Example two_element_matrix (k : R) :
  assemble 2 (fun=> Ok k)
  = Ok (\matrix_(r < 3, c < 3)
          nth 0 (nth [::] [:: [:: k; - k; 0];
                              [:: - k; k + k; - k];
                              [:: 0; - k; k]] r) c).
Proof.
rewrite assemble_Ok; congr Ok; apply/matrixP => r c.
rewrite stiffness_matrixE mxE !big_ord_recl big_ord0 /incidence /=.
by case: r => [[|[|[|r]]] ?] //; case: c => [[|[|[|c]]] ?] //=; ring.
Qed.

(** C10.  Rigid-body mode: for every number of elements and every choice
    of element stiffnesses, the assembled matrix sends the uniform
    translation [(1, ..., 1)] to zero, that is, each of its rows sums to
    zero. *)
Theorem rigid_body_mode n ke :
  exists K : 'M[R]_n.+1,
    [/\ assemble n (fun i => Ok (ke i)) = Ok K,
        K *m ones R n.+1 = 0
      & forall r, \sum_s K r s = 0].
Proof.
exists (stiffness_matrix n ke); split; first exact: assemble_Ok.
  exact: stiffness_ones.
exact: row_sum.
Qed.

(** C5.  The assembled matrix is symmetric and singular; the matrix left
    after the row and column of the fixed node are removed is invertible
    when every element stiffness is positive. *)
Theorem stiffness_symmetric_singular_reduced_regular n ke :
  exists K : 'M[R]_n.+1,
    [/\ assemble n (fun i => Ok (ke i)) = Ok K,
        K^T = K,
        K \notin unitmx
      & (forall i, (i < n)%N -> 0 < ke i) ->
        drop_first_row_col K \in unitmx].
Proof.
exists (stiffness_matrix n ke); split; first exact: assemble_Ok.
- exact: stiffness_sym.
- exact: stiffness_singular.
- by move=> /pos_neq0; apply: reduced_unit.
Qed.

(** ** Boundary condition *)

(** C6, as amended.  The boundary condition of the cell is fixed: node 0
    held at 0.  [K[1:, 1:]] and [F[1:]] remove row 0 and column 0 of [K]
    and the first entry of [F], and nothing is subtracted from the load;
    a field the cell returns is 0 at node 0 and its other entries solve
    the reduced system; row 0 and column 0 of [K] and [F[0]] do not
    enter the result. *)
Theorem boundary_condition_removes_node0 n (K : 'M[R]_n.+1) (F : 'cV[R]_n.+1) :
  [/\ forall i j : 'I_n,
        drop_first_row_col K i j = K (lift ord0 i) (lift ord0 j),
      forall i : 'I_n, drop_first F i 0 = F (lift ord0 i) 0,
      forall d, solve_fixed0 K F = Ok d ->
        d ord0 0 = 0 /\ drop_first_row_col K *m drop_first d = drop_first F
    & forall (K' : 'M[R]_n.+1) (F' : 'cV[R]_n.+1),
        (forall i j : 'I_n,
           K' (lift ord0 i) (lift ord0 j) = K (lift ord0 i) (lift ord0 j)) ->
        (forall i : 'I_n, F' (lift ord0 i) 0 = F (lift ord0 i) 0) ->
        solve_fixed0 K' F' = solve_fixed0 K F].
Proof.
split=> [i j|i|d solve_d|K' F' eqK eqF].
- exact: drop_first_row_colE.
- exact: drop_firstE.
- have [v /linalg_solve_Ok[_ Kv] [<-]] := bind_Ok_inv solve_d.
  by rewrite insert0_0 drop_first_insert0.
- rewrite /solve_fixed0.
  have -> : drop_first_row_col K' = drop_first_row_col K.
    by apply/matrixP=> i j; rewrite !drop_first_row_colE.
  have -> // : drop_first F' = drop_first F.
  by apply/colP=> i; rewrite !drop_firstE.
Qed.

(** ** The displacement field *)

(** C1.  For positive element stiffnesses and any load vector the cell
    returns a displacement field, and the field satisfies [K d = F] on
    every free degree of freedom, [K] being the assembled matrix. *)
Theorem static_equilibrium n ke (F : 'cV[R]_n.+1) :
  (forall i, (i < n)%N -> 0 < ke i) ->
  exists (K : 'M[R]_n.+1) (d : 'cV[R]_n.+1),
    [/\ assemble n (fun i => Ok (ke i)) = Ok K,
        solve_bar (fun i => Ok (ke i)) F = Ok d
      & equilibrium K F d].
Proof.
move=> /pos_neq0 ke_neq0.
have [d [solve_d _ eq_d]] := solve_fixed0_Ok F ke_neq0.
exists (stiffness_matrix n ke), d; split=> //; first exact: assemble_Ok.
by rewrite solve_bar_Ok.
Qed.

(** C2.  Uniform bar of [n] elements of stiffness [k], fixed at node 0,
    loaded by [force] at the last node (the cell with
    [length = n / k]): the displacement of node [j] is [force * j / k],
    which is [- force * j / k] times the sign [-1]; it is zero at node 0
    and monotonic along the bar: its magnitude does not decrease with the
    distance from the fixed end, and it is nondecreasing for a
    nonnegative force, nonincreasing otherwise. *)
Theorem uniform_bar_linear n k force : 0 < k ->
  exists d : 'cV[R]_n.+1,
    (solve_bar (fun=> Ok k) (load_vector n force) = Ok d
     /\ fea (n%:R / k) n force = Ok d)
    /\ [/\ forall j, d j 0 = -1 * (- force * j%:R / k),
           d ord0 0 = 0,
           forall i j : 'I_n.+1, (i <= j)%N -> `|d i 0| <= `|d j 0|
         & forall i j : 'I_n.+1, (i <= j)%N ->
             if 0 <= force then d i 0 <= d j 0 else d j 0 <= d i 0].
Proof.
move=> k_gt0; have k0 : k != 0 by rewrite gt_eqF.
exists (linear_field n k force); split.
  by rewrite solve_bar_Ok solve_uniform // fea_uniform.
split=> [j||i j le_ij|i j le_ij]; rewrite ?mxE.
- by rewrite mulN1r !mulNr opprK.
- by rewrite mulr0 mul0r.
- rewrite !normrM !normfV !normr_nat ler_pM2r ?invr_gt0 ?normr_gt0 //.
  by rewrite ler_wpM2l // ler_nat.
- case: ifP => [force_ge0|/negbT]; rewrite ler_pM2r ?invr_gt0 //.
    by rewrite ler_wpM2l // ler_nat.
  by rewrite -ltNge => /ltW force_le0; rewrite ler_wnM2l // ler_nat.
Qed.

(** C3.  Single element of stiffness [k], node 0 fixed, [force] at node 1
    (the cell with [num_elements = 1] and [length = 1 / k]): the
    displacement of node 1 is [force / k]. *)
Theorem single_element_bar k force : k != 0 ->
  exists d : 'cV[R]_2,
    [/\ solve_bar (fun=> Ok k) (load_vector 1 force) = Ok d,
        fea (1 / k) 1 force = Ok d
      & d ord_max 0 = force / k].
Proof.
move=> k0; exists (linear_field 1 k force); split.
- by rewrite solve_bar_Ok solve_uniform.
- by rewrite -(fea_uniform 1 force k0).
- by rewrite mxE /= mulr1.
Qed.

(** C7.  A displacement field the cell returns has one entry for each of
    the [n + 1] nodes of the mesh, and its entry at the fixed node 0 is
    exactly the prescribed value 0. *)
Theorem fixed_node_displacement n (stiff : nat -> result R)
    (F d : 'cV[R]_n.+1) (length : R) :
  solve_bar stiff F = Ok d ->
  d ord0 0 = 0 /\ size (nodes length n) = n.+1.
Proof.
rewrite /solve_bar => solve_d.
have [K _ {solve_d}] := bind_Ok_inv solve_d; rewrite /solve_fixed0 => solve_d.
have [v _ [<-]] := bind_Ok_inv solve_d.
by rewrite insert0_0 /nodes /linspace0 size_map size_iota.
Qed.

End Bar.

(** * The cell as notebook code *)

Section NotebookFacts.

Variable R : realFieldType.
Implicit Types (n i : nat) (k force : R) (ke : nat -> R) (ns : namespace R).

Ltac run_stmts :=
  rewrite /run_cell /stmt_nodes /stmt_K /stmt_F /stmt_load /stmt_for
          /stmt_k_local /stmt_iadd /stmt_bc_K /stmt_bc_F /stmt_solve
          /stmt_insert /bind_stmt /=.

(** The loop invariant: [K] holds the contributions of the elements
    visited so far. *)
Lemma stmt_for_run (len : R) n c nd F gi gk dsp (K0 : 'M[R]_n.+1) s :
  len != 0 -> all (fun i => i < n)%N s ->
  for_each s (fun i => assign (set_i i) ;;; @stmt_k_local R ;;; @stmt_iadd R)
    (Namespace (Some len) (Some n) c nd (Some (existT _ n.+1 K0)) F
               gi gk dsp)
  = (Ok tt,
     Namespace (Some len) (Some n) c nd
       (Some (existT _ n.+1
          (K0 + \sum_(i <- s) element_contribution n i (n%:R / len))))
       F
       (if nilp s then gi else Some (last 0%N s))
       (if nilp s then gk else Some (k_local (n%:R / len))) dsp).
Proof.
move=> /negbTE len0.
elim: s gi gk K0 => [|i s IH] gi gk K0 /=; first by rewrite big_nil addr0.
case/andP=> lt_in /IH{}IH.
run_stmts; rewrite /py_div len0 /= addn2 ltnS lt_in /= IH big_cons addrA.
by rewrite -iadd_blockE; case: (s).
Qed.

Lemma last_iota n : last 0%N (iota 0 n.+1) = n.
Proof. by rewrite -addn1 iotaD add0n /= cats1 last_rcons. Qed.

(** What a run of the cell does to the namespace. *)
Lemma run_cell_total (len : R) n (f : R) ns :
  run_cell len n f ns
  = if (len == 0) && (0 < n)%N
    then (Raise ZeroDivisionError, failed_namespace len n f ns)
    else (Ok tt, final_namespace len n f ns).
Proof.
case: ns => a b c d e g h j l; run_stmts.
have [/andP[/eqP len0 n_gt0]|ok] := boolP ((len == 0) && (0 < n)%N).
  case: n n_gt0 => // n _.
  by rewrite /= /bind_stmt /= /py_div len0 eqxx.
have [v solve_v [ins_v]] := bind_Ok_inv (solve_cell f ok).
have -> : for_each (iota 0 n)
            (fun i => assign (set_i i) ;;; @stmt_k_local R ;;; @stmt_iadd R)
            (Namespace (Some len) (Some n) (Some f)
                   (Some (linspace0 len n.+1))
                   (Some (existT _ n.+1 (0 : 'M[R]_n.+1)))
                   (Some (existT _ n.+1 (setitem_last 0 f))) h j l)
          = (Ok tt,
             Namespace (Some len) (Some n) (Some f)
                   (Some (linspace0 len n.+1))
                   (Some (existT _ n.+1
                      (stiffness_matrix n (fun=> n%:R / len))))
                   (Some (existT _ n.+1 (load_vector n f)))
                   (if n is m.+1 then Some m else h)
                   (if n is _.+1 then Some (k_local (n%:R / len)) else j) l).
  case: n ok {v solve_v ins_v}=> [_|n]; first by rewrite /= stiffness_matrix0.
  rewrite andbT => len0.
  have lt_n : all (fun i => i < n.+1)%N (iota 0 n.+1).
    by apply/allP => i; rewrite mem_iota.
  rewrite stmt_for_run //.
  rewrite add0r /stiffness_matrix /nilp size_iota /=.
  rewrite -(big_mkord xpredT (fun i => element_contribution n.+1 i _)).
  by rewrite /index_iota subn0; have /= -> := last_iota n.
rewrite /=; case: eqP => // e0; rewrite castmx_id solve_v /=.
by rewrite /final_namespace -ins_v.
Qed.

Lemma run_cell_Ok (len : R) n (f : R) ns ns' :
  run_cell len n f ns = (Ok tt, ns') ->
  ~~ ((len == 0) && (0 < n)%N) /\ ns' = final_namespace len n f ns.
Proof. by rewrite run_cell_total; case: ifP => // _ [<-]. Qed.


Lemma final_namespace_idem (len : R) n (f : R) ns :
  final_namespace len n f (final_namespace len n f ns)
  = final_namespace len n f ns.
Proof. by case: n. Qed.

(** C9, as amended.  The cell is deterministic and reads no earlier
    state: two successful runs with the same [length], [num_elements]
    and [force] bind [displacements] to the same field, the one [fea]
    gives, whatever the namespaces they start from; running the cell
    again on the namespace it left changes nothing; and when the loop
    runs at least once the whole namespace the cell leaves is the same
    from every start. *)
Theorem cell_deterministic (len : R) n (f : R) ns1 ns2 ns1' ns2' :
  run_cell len n f ns1 = (Ok tt, ns1') ->
  run_cell len n f ns2 = (Ok tt, ns2') ->
  [/\ v_displacements ns1' = v_displacements ns2',
      exists2 d, fea len n f = Ok d
               & v_displacements ns1' = Some (existT _ n.+1 d),
      run_cell len n f ns1' = (Ok tt, ns1')
    & (0 < n)%N -> ns1' = ns2'].
Proof.
move=> /run_cell_Ok[ok ->] /run_cell_Ok[_ ->]; split=> //.
- exists (linear_field n (n%:R / len) f) => //.
  by rewrite fea_total (negbTE ok).
- by rewrite run_cell_total (negbTE ok) final_namespace_idem.
- by case: (n).
Qed.

(** ** Errors *)


End NotebookFacts.

(** * Further properties of the cells *)

Section Further.

Variable R : realFieldType.
Implicit Types (n i : nat) (k force length : R) (ke : nat -> R).
Implicit Types (ns : namespace R).

Lemma fea_Ok_inv length n force d :
  fea length n force = Ok d ->
  ~~ ((length == 0) && (0 < n)%N) /\ d = linear_field n (n%:R / length) force.
Proof. by rewrite fea_total; case: ifP => // _ [<-]. Qed.

Lemma nth_linspace0 (stop : R) num i : (i < num)%N ->
  nth 0 (linspace0 stop num) i = i%:R * (stop / (num.-1)%:R).
Proof.
by move=> lt_i; rewrite /linspace0 (nth_map 0%N) ?size_iota // nth_iota.
Qed.

Lemma stiffness_entry n ke (r s : 'I_n.+1) :
  stiffness_matrix n ke r s
  = (if (r < n)%N then ke r * incidence R r s else 0)
    - (if (0 < r)%N then ke r.-1 * incidence R r.-1 s else 0).
Proof.
have := sum_incidence_row n (fun i => ke i * incidence R i s) r.
rewrite -(ltnS r) ltn_ord andbT stiffness_matrixE => <-.
by apply: eq_bigr => i _; ring.
Qed.

(** ** The FEA cell: edge case *)

(** X2.  With [num_elements = 0] the only node is the fixed one: whatever
    [length] (zero included) and [force] are, the cell returns the single
    displacement 0, and the force put on that node is dropped with the
    boundary condition. *)
Theorem no_element_bar length force : fea length 0 force = Ok 0.
Proof.
rewrite fea_total andbF; congr Ok; apply/colP=> r.
by rewrite linear_field0 mxE.
Qed.

(** ** The FEA cell: the displacement field *)

(** X3.  The displacement the cell returns at node [j] is [force] times
    the position [nodes[j]] of that node: plotted against [nodes], the
    field is the straight line of slope [force], whatever the number of
    elements. *)
Theorem nodal_displacement length n force (d : 'cV[R]_n.+1) :
  fea length n force = Ok d ->
  forall j : 'I_n.+1, d j 0 = force * nth 0 (nodes length n) j.
Proof.
case/fea_Ok_inv=> _ -> j.
by rewrite mxE /nodes nth_linspace0 //= invf_div -mulrA.
Qed.

(** X4.  With at least one element, the displacement of the loaded end is
    [force * length]: it does not depend on [num_elements]. *)
Theorem tip_displacement length n force (d : 'cV[R]_n.+1) :
  fea length n force = Ok d -> (0 < n)%N -> d ord_max 0 = force * length.
Proof.
case/fea_Ok_inv=> _ -> n_gt0.
rewrite mxE /= invf_div -mulrA; congr (_ * _).
by rewrite mulrCA divff ?mulr1 // pnatr_eq0 -lt0n.
Qed.

(** X5.  Superposition: the field of the cell is linear in [force]. *)
Theorem force_superposition length n (a f1 f2 : R) (d1 d2 : 'cV[R]_n.+1) :
  fea length n f1 = Ok d1 -> fea length n f2 = Ok d2 ->
  fea length n (a * f1 + f2) = Ok (a *: d1 + d2).
Proof.
case/fea_Ok_inv=> ok -> /fea_Ok_inv[_ ->]; rewrite fea_total (negbTE ok).
by congr Ok; apply/colP=> j; rewrite !mxE !mulrDl !mulrA.
Qed.

(** X6.  Reaction at the support: with the assembled matrix [K] (before
    the boundary condition) and the field [d] of the cell, row 0 of
    [K d] is [- force], the reaction that balances the load; and for
    every nodal vector the entries of [K v] sum to zero. *)
Theorem fixed_node_reaction length n force :
  length != 0 -> (0 < n)%N ->
  exists (K : 'M[R]_n.+1) (d : 'cV[R]_n.+1),
    [/\ assemble n (fun=> py_div n%:R length) = Ok K,
        fea length n force = Ok d,
        (K *m d) ord0 0 = - force
      & forall v : 'cV[R]_n.+1, \sum_r (K *m v) r 0 = 0].
Proof.
move=> len0 n_gt0; rewrite fea_total (negbTE len0) /= /py_div (negbTE len0).
exists (stiffness_matrix n (fun=> n%:R / length)); eexists.
split; [exact: assemble_Ok | by [] | |].
  rewrite stiffness_row /= n_gt0 subr0 linear_field_tension //.
  by rewrite mulf_neq0 ?invr_neq0 // pnatr_eq0 -lt0n.
move=> v; under eq_bigr do rewrite mxE.
rewrite exchange_big big1 //= => s _; rewrite -mulr_suml.
have <- : \sum_r (stiffness_matrix n (fun=> n%:R / length))^T s r
          = \sum_r stiffness_matrix n (fun=> n%:R / length) r s.
  by apply: eq_bigr => r _; rewrite mxE.
by rewrite stiffness_sym row_sum mul0r.
Qed.

(** X7.  The field the cell returns is the only one that vanishes at
    node 0 and is in equilibrium with the load on the free nodes. *)
Theorem solution_unique n ke (F d : 'cV[R]_n.+1) :
  (forall i, (i < n)%N -> 0 < ke i) ->
  solve_bar (fun i => Ok (ke i)) F = Ok d ->
  exists K : 'M[R]_n.+1,
    assemble n (fun i => Ok (ke i)) = Ok K
    /\ forall d' : 'cV[R]_n.+1,
         d' ord0 0 = 0 -> equilibrium K F d' -> d' = d.
Proof.
move=> /pos_neq0 ke_neq0; rewrite solve_bar_Ok => solve_d.
exists (stiffness_matrix n ke); split; first exact: assemble_Ok.
move=> d' d'0 eq_d'; have := solve_fixed0_uniq ke_neq0 d'0 eq_d'.
by rewrite solve_d => -[].
Qed.

(** ** The assembled matrix *)

(** X8.  The assembled matrix is tridiagonal: on the diagonal, node [r]
    has the sum of the stiffnesses of the elements that meet there;
    next to the diagonal, nodes [r] and [r + 1] are coupled by minus the
    stiffness of element [r]; every other entry is zero. *)
Theorem stiffness_tridiagonal n ke :
  exists K : 'M[R]_n.+1,
    [/\ assemble n (fun i => Ok (ke i)) = Ok K,
        forall r : 'I_n.+1,
          K r r = (if (r < n)%N then ke r else 0)
                  + (if (0 < r)%N then ke r.-1 else 0),
        forall r s : 'I_n.+1, s = r.+1 :> nat ->
          K r s = - ke r /\ K s r = - ke r
      & forall r s : 'I_n.+1, (r.+1 < s)%N || (s.+1 < r)%N -> K r s = 0].
Proof.
exists (stiffness_matrix n ke); split; first exact: assemble_Ok.
- move=> r; rewrite stiffness_entry /incidence eqxx (ltn_eqF (ltnSn r)).
  case: (r : nat) => [|m] /=; first by case: ifP => _; ring.
  by rewrite eqxx (gtn_eqF (ltnSn m)) /=; case: ifP => _; ring.
- move=> r s eq_s.
  have lt_rn : (r < n)%N by rewrite -ltnS -eq_s.
  have Krs : stiffness_matrix n ke r s = - ke r.
    rewrite stiffness_entry lt_rn /incidence eq_s eqxx (gtn_eqF (ltnSn r)).
    case: (r : nat) => [|m] /=; first by ring.
    rewrite (gtn_eqF (ltnW (ltnSn m.+1))) (gtn_eqF (ltnSn m.+1)) /=.
    by ring.
  by split=> //; rewrite -Krs -[in LHS]stiffness_sym mxE.
- move=> r s far.
  have sym : stiffness_matrix n ke r s = stiffness_matrix n ke s r.
    by rewrite -[in RHS]stiffness_sym mxE.
  wlog lt_rs : r s far sym / (r.+1 < s)%N => [H|].
    by case/orP: (far) => lt; [exact: H | rewrite sym; apply: H; rewrite ?lt].
  rewrite stiffness_entry /incidence.
  rewrite (gtn_eqF (ltnW lt_rs)) (gtn_eqF lt_rs) subrr mulr0.
  case: (r : nat) lt_rs => [|m] lt_ms /=; first by rewrite if_same subrr.
  rewrite (gtn_eqF (ltnW (ltnW lt_ms))) (gtn_eqF (ltnW lt_ms)) subrr mulr0.
  by rewrite if_same subrr.
Qed.

(** X9.  Uniform translations are the only rigid-body modes: when no
    element stiffness is zero, the assembled matrix sends a nodal vector
    to zero exactly when all its entries are equal. *)
Theorem only_rigid_body_mode n ke (d : 'cV[R]_n.+1) :
  (forall i, (i < n)%N -> ke i != 0) ->
  exists K : 'M[R]_n.+1,
    assemble n (fun i => Ok (ke i)) = Ok K
    /\ (K *m d = 0 <-> exists c, d = c *: ones R n.+1).
Proof.
move=> ke_neq0; exists (stiffness_matrix n ke); split; first exact: assemble_Ok.
split=> [Kd0|[c ->]]; last by rewrite -scalemxAr stiffness_ones scaler0.
exists (d ord0 0); apply/eqP; rewrite -subr_eq0; apply/eqP.
apply: (stiffness_ker ke_neq0); first by rewrite !mxE mulr1 subrr.
by move=> i _; rewrite mulmxBr Kd0 -scalemxAr stiffness_ones scaler0 subr0.
Qed.

(** X10.  Strain energy: the quadratic form of the assembled matrix is
    the sum over the elements of stiffness times squared elongation; it
    is nonnegative when no stiffness is negative. *)
Theorem strain_energy n ke (d : 'cV[R]_n.+1) :
  exists K : 'M[R]_n.+1,
    [/\ assemble n (fun i => Ok (ke i)) = Ok K,
        (d^T *m K *m d) 0 0
        = \sum_(i < n) ke i * (nth_disp d i - nth_disp d i.+1) ^+ 2
      & (forall i, (i < n)%N -> 0 <= ke i) -> 0 <= (d^T *m K *m d) 0 0].
Proof.
exists (stiffness_matrix n ke).
have energy : (d^T *m stiffness_matrix n ke *m d) 0 0
              = \sum_(i < n) ke i * (nth_disp d i - nth_disp d i.+1) ^+ 2.
  rewrite -mulmxA mxE.
  under eq_bigr do rewrite mxE stiffness_mulE mulr_sumr.
  rewrite exchange_big /=; apply: eq_bigr => i _.
  rewrite /nth_disp -widen_inord -lift0_inord.
  rewrite expr2 mulrA; set t := ke i * _.
  rewrite -(sum_incidence i (fun j => d j 0)) mulr_sumr.
  by apply: eq_bigr => j _; ring.
split=> //; first exact: assemble_Ok.
move=> ke_ge0; rewrite energy; apply: sumr_ge0 => i _.
by rewrite mulr_ge0 ?ke_ge0 // sqr_ge0.
Qed.

(** ** [np.linspace(0, stop, num)] *)

(** X12.  For a positive [stop] the points of [np.linspace(0, stop, num)]
    are strictly increasing. *)
Theorem linspace0_increasing (stop : R) num (i j : nat) :
  0 < stop -> (i < j < num)%N ->
  nth 0 (linspace0 stop num) i < nth 0 (linspace0 stop num) j.
Proof.
move=> stop_gt0 /andP[lt_ij lt_j].
rewrite !nth_linspace0 ?(ltn_trans lt_ij) // ltr_pM2r ?ltr_nat //.
rewrite divr_gt0 // ltr0n -subn1 subn_gt0.
by apply: leq_ltn_trans lt_j; apply: leq_ltn_trans lt_ij.
Qed.

(** ** The FEA cell in the notebook's namespace *)

Lemma assemble_cell (len : R) n : ~~ ((len == 0) && (0 < n)%N) ->
  assemble n (fun=> py_div n%:R len)
  = Ok (stiffness_matrix n (fun=> n%:R / len)).
Proof.
case: n => [_|n]; first by rewrite /assemble /= stiffness_matrix0.
by rewrite andbT => /negbTE len0; rewrite /py_div len0 assemble_Ok.
Qed.

(** X13.  After a successful run, [K] and [F] no longer hold the
    assembled system: [K] is bound to the assembled matrix without its
    row and column 0, [F] to the load vector without its first entry;
    [displacements] is bound to the field [fea] gives, with [n + 1]
    entries, [nodes] to the mesh; and the entries of [displacements]
    after the first solve the system left in [K] and [F]. *)
Theorem namespace_after_run (len : R) n (f : R) ns ns' :
  run_cell len n f ns = (Ok tt, ns') ->
  exists (K : 'M[R]_n.+1) (d : 'cV[R]_n.+1),
    [/\ assemble n (fun=> py_div n%:R len) = Ok K /\ fea len n f = Ok d,
        v_K ns' = Some (existT _ n (drop_first_row_col K)),
        v_F ns' = Some (existT _ n (drop_first (load_vector n f))),
        v_displacements ns' = Some (existT _ n.+1 d)
        /\ v_nodes ns' = Some (nodes len n)
      & drop_first_row_col K *m drop_first d = drop_first (load_vector n f)].
Proof.
case/run_cell_Ok=> ok ->.
have [v /linalg_solve_Ok[_ Kv] [ins_v]] := bind_Ok_inv (solve_cell f ok).
exists (stiffness_matrix n (fun=> n%:R / len)).
exists (linear_field n (n%:R / len) f); split=> //.
  by rewrite assemble_cell // fea_total (negbTE ok).
by rewrite -ins_v drop_first_insert0.
Qed.

(** ** The kinematics cell *)

(** X15.  The equations of motion of [spacecraft_motion] are those of a
    constant acceleration [u]: along [pos = p0 + v0 t + u t^2 / 2],
    [vel = v0 + u t] the function returns the time derivatives of [pos]
    and [vel], and the trajectory starts from [p0], [v0]. *)
Theorem uniform_acceleration_trajectory (p0 v0 u t : R) :
  [/\ spacecraft_motion [:: (position p0 v0 u).[t]; (velocity v0 u).[t]] t u
      = Ok [:: ((position p0 v0 u)^`()).[t]; ((velocity v0 u)^`()).[t]],
      (position p0 v0 u).[0] = p0
    & (velocity v0 u).[0] = v0].
Proof.
rewrite /position /velocity; split.
- rewrite /= !derivD !derivZ !derivC derivX derivXn /= !hornerE expr1.
  by congr (Ok [:: _; _]); field.
- by rewrite !hornerE /=; ring.
- by rewrite !hornerE; ring.
Qed.

End Further.

(** * The notebook's run and other concrete bars, over the rationals *)

Section Instances.

(** The cell as the notebook has it: [length = 1.0], [num_elements = 10],
    [force = -5.0]; node [j] moves by [-5 * j / 10]. *)
Example notebook_run :
  fea (1 : rat) 10 (-5) = Ok (linear_field 10 (10%:R / 1) (-5)).
Proof. by rewrite fea_total oner_eq0. Qed.

Example notebook_run_entries (j : 'I_11) :
  linear_field 10 (10%:R / 1) (-5 : rat) j 0 = - j%:R / 2.
Proof.
by rewrite mxE; field.
Qed.

(** A zero [length] stops the cell in the first iteration of the loop. *)
Example zero_length_raises :
  fea (0 : rat) 10 (-5) = Raise ZeroDivisionError.
Proof. by rewrite fea_total eqxx. Qed.

Lemma static_equilibrium_witness :
  exists (K : 'M[rat]_3) (d : 'cV[rat]_3),
    [/\ assemble 2 (fun=> Ok 1) = Ok K,
        solve_bar (fun=> Ok 1) (load_vector 2 (-5)) = Ok d
      & equilibrium K (load_vector 2 (-5)) d].
Proof. by apply: (@static_equilibrium rat 2 (fun=> 1)). Defined.

Lemma uniform_bar_linear_witness :
  exists d : 'cV[rat]_11,
    (solve_bar (fun=> Ok 10) (load_vector 10 (-5)) = Ok d
     /\ fea (10%:R / 10) 10 (-5) = Ok d)
    /\ [/\ forall j, d j 0 = -1 * (- (-5) * j%:R / 10),
           d ord0 0 = 0,
           forall i j : 'I_11, (i <= j)%N -> `|d i 0| <= `|d j 0|
         & forall i j : 'I_11, (i <= j)%N ->
             if 0 <= (-5 : rat) then d i 0 <= d j 0 else d j 0 <= d i 0].
Proof. by apply: (@uniform_bar_linear rat 10 10 (-5)). Defined.

(** [k = 2.0] and [F = -5.0] give [-2.5] at node 1. *)
Lemma single_element_bar_witness :
  exists d : 'cV[rat]_2,
    [/\ solve_bar (fun=> Ok 2) (load_vector 1 (-5)) = Ok d,
        fea (1 / 2) 1 (-5) = Ok d
      & d ord_max 0 = -5 / 2].
Proof. by apply: (@single_element_bar rat 2 (-5)). Defined.

Lemma stiffness_symmetric_singular_reduced_regular_witness :
  exists K : 'M[rat]_3,
    [/\ assemble 2 (fun=> Ok 1) = Ok K, K^T = K, K \notin unitmx
      & drop_first_row_col K \in unitmx].
Proof.
have [K [asm sym sing reg]] :=
  @stiffness_symmetric_singular_reduced_regular rat 2 (fun=> 1).
by exists K; split=> //; apply: reg.
Defined.

Lemma fixed_node_displacement_witness :
  exists d : 'cV[rat]_11,
    fea 1 10 (-5) = Ok d /\ (d ord0 0 = 0 /\ size (nodes (1 : rat) 10) = 11%N).
Proof.
exists (linear_field 10 (10%:R / 1) (-5)).
have run : fea (1 : rat) 10 (-5) = Ok (linear_field 10 (10%:R / 1) (-5)).
  by rewrite fea_total oner_eq0.
by split=> //; apply: (fixed_node_displacement (stiff := fun=> py_div 10%:R 1)
                         (F := load_vector 10 (-5))).
Defined.

(** The reduction of the cell is not the elimination of an arbitrary
    constraint: on the one-element bar it differs from the elimination of
    node 0 with prescribed value 1 (no load adjustment is made) and from
    the elimination of node 1 with value 0 (row and column 0 are the ones
    removed). *)
Lemma cell_elimination_is_not_general :
  exists K : 'M[rat]_2,
    [/\ assemble 1 (fun=> py_div 1 1) = Ok K,
        (drop_first_row_col K, drop_first (load_vector 1 (-5)))
        <> spec_eliminate ord0 1 K (load_vector 1 (-5))
      & (drop_first_row_col K, drop_first (load_vector 1 (-5)))
        <> spec_eliminate ord_max 0 K (load_vector 1 (-5))].
Proof.
exists (stiffness_matrix 1 (fun=> 1 / 1)); split; first exact: assemble_Ok.
- case=> _ /colP/(_ ord0); rewrite drop_firstE !mxE /=.
  rewrite stiffness_matrixE big_ord_recl big_ord0 /incidence /=.
  by rewrite divr1 !mul1r subr0 mulr1 ?addr0 sub0r opprK => /eqP.
- case=> _ /colP/(_ ord0); rewrite drop_firstE !mxE mul0r subr0.
  by rewrite -!val_eqE /= => /eqP.
Qed.

Lemma boundary_condition_removes_node0_witness :
  [/\ drop_first_row_col (stiffness_matrix 1 (fun=> 1 : rat)) ord0 ord0
      = stiffness_matrix 1 (fun=> 1 : rat) (lift ord0 ord0) (lift ord0 ord0),
      linear_field 1 1 (-5 : rat) ord0 0 = 0
      /\ drop_first_row_col (stiffness_matrix 1 (fun=> 1 : rat))
           *m drop_first (linear_field 1 1 (-5))
         = drop_first (load_vector 1 (-5))
    & solve_fixed0 (stiffness_matrix 1 (fun=> 1 : rat)) (load_vector 1 (-5))
      = solve_fixed0 (stiffness_matrix 1 (fun=> 1 : rat)) (load_vector 1 (-5))].
Proof.
have [entries _ solved same] :=
  boundary_condition_removes_node0 (stiffness_matrix 1 (fun=> 1 : rat))
                                   (load_vector 1 (-5)).
split; first exact: entries.
- by apply: solved; rewrite solve_uniform.
- exact: same.
Defined.



(** The cell does more than return its result: run in a fresh kernel, it
    leaves [K] (and [length], [num_elements], [force], [nodes], [F], [i],
    [k_local]) bound at module level. *)
Lemma cell_rebinds_module_names :
  exists ns' : namespace rat,
    run_cell 1 10 (-5) (empty_namespace rat) = (Ok tt, ns')
    /\ ~ only_binds_result (empty_namespace rat) ns'.
Proof.
exists (final_namespace 1 10 (-5) (empty_namespace rat)); split.
  by rewrite run_cell_total oner_eq0.
by case=> d.
Qed.

Lemma cell_deterministic_witness :
  let ns' := final_namespace (1 : rat) 10 (-5) (empty_namespace rat) in
  [/\ v_displacements ns' = v_displacements ns',
      exists2 d, fea 1 10 (-5) = Ok d
               & v_displacements ns' = Some (existT _ 11%N d),
      run_cell 1 10 (-5) ns' = (Ok tt, ns')
    & (0 < 10)%N -> ns' = ns'].
Proof.
by apply: (@cell_deterministic _ _ _ _ (empty_namespace rat)
            (empty_namespace rat)); rewrite run_cell_total oner_eq0.
Defined.

End Instances.
Section FurtherInstances.

Lemma nodal_displacement_witness :
  linear_field 10 (10%:R / 1) (-5 : rat) (inord 3) 0
  = -5 * nth 0 (nodes 1 10) (inord 3 : 'I_11).
Proof. exact: (nodal_displacement notebook_run). Defined.

Lemma tip_displacement_witness :
  linear_field 10 (10%:R / 1) (-5 : rat) ord_max 0 = -5 * 1.
Proof. exact: (tip_displacement notebook_run). Defined.

Lemma force_superposition_witness :
  fea (1 : rat) 10 (2 * (-5) + (-5))
  = Ok (2 *: linear_field 10 (10%:R / 1) (-5)
        + linear_field 10 (10%:R / 1) (-5)).
Proof. exact: (force_superposition 2 notebook_run notebook_run). Defined.

Lemma fixed_node_reaction_witness :
  exists (K : 'M[rat]_11) (d : 'cV[rat]_11),
    [/\ assemble 10 (fun=> py_div 10%:R 1) = Ok K,
        fea 1 10 (-5) = Ok d,
        (K *m d) ord0 0 = - (-5)
      & forall v : 'cV[rat]_11, \sum_r (K *m v) r 0 = 0].
Proof. by apply: (@fixed_node_reaction rat 1 10 (-5)). Defined.

Lemma solution_unique_witness :
  exists K : 'M[rat]_11,
    assemble 10 (fun=> Ok (10%:R / 1)) = Ok K
    /\ forall d' : 'cV[rat]_11,
         d' ord0 0 = 0 -> equilibrium K (load_vector 10 (-5)) d' ->
         d' = linear_field 10 (10%:R / 1) (-5).
Proof.
apply: (@solution_unique rat 10 (fun=> 10%:R / 1)) => //.
by rewrite -fea_solve_bar // notebook_run.
Defined.

Lemma stiffness_tridiagonal_witness :
  exists K : 'M[rat]_3,
    [/\ assemble 2 (fun=> Ok 10) = Ok K,
        K ord0 (inord 1) = - 10 /\ K (inord 1) ord0 = - 10
      & K ord0 ord_max = 0].
Proof.
have [K [asm _ off far]] := @stiffness_tridiagonal rat 2 (fun=> 10).
exists K; split=> //; first by apply: off; rewrite inordK.
exact: far.
Defined.

Lemma only_rigid_body_mode_witness :
  exists K : 'M[rat]_3,
    assemble 2 (fun=> Ok 10) = Ok K
    /\ (K *m ones rat 3 = 0 <-> exists c, ones rat 3 = c *: ones rat 3).
Proof. by apply: (@only_rigid_body_mode rat 2 (fun=> 10)). Defined.

Lemma strain_energy_witness :
  exists K : 'M[rat]_3,
    assemble 2 (fun=> Ok 10) = Ok K
    /\ 0 <= ((load_vector 2 1)^T *m K *m load_vector 2 1) 0 0.
Proof.
have [K [asm _ pos]] := @strain_energy rat 2 (fun=> 10) (load_vector 2 1).
by exists K; split=> //; apply: pos.
Defined.

Lemma linspace0_increasing_witness :
  nth 0 (linspace0 (10 : rat) 100) 3 < nth 0 (linspace0 (10 : rat) 100) 7.
Proof. by apply: linspace0_increasing. Defined.

Lemma namespace_after_run_witness :
  exists (K : 'M[rat]_11) (d : 'cV[rat]_11),
    [/\ assemble 10 (fun=> py_div 10%:R 1) = Ok K /\ fea 1 10 (-5) = Ok d,
        v_K (final_namespace 1 10 (-5) (empty_namespace rat))
        = Some (existT _ 10%N (drop_first_row_col K)),
        v_F (final_namespace 1 10 (-5) (empty_namespace rat))
        = Some (existT _ 10%N (drop_first (load_vector 10 (-5)))),
        v_displacements (final_namespace 1 10 (-5) (empty_namespace rat))
        = Some (existT _ 11%N d)
        /\ v_nodes (final_namespace 1 10 (-5) (empty_namespace rat))
           = Some (nodes 1 10)
      & drop_first_row_col K *m drop_first d
        = drop_first (load_vector 10 (-5))].
Proof.
apply: (@namespace_after_run rat 1 10 (-5) (empty_namespace rat)).
by rewrite run_cell_total oner_eq0.
Defined.

End FurtherInstances.
